(** * Object metadata of cdk8s: [ApiObjectMetadataDefinition]

    A shallow embedding of [packages/cdk8s/src/metadata.ts].

    JavaScript objects are modelled by their own enumerable properties, as
    association lists in insertion order.  The record keeps its [labels] and
    [annotations] objects by reference (they may be the very objects passed in
    the options bundle), so those two live in a small heap of string maps and
    the record holds their locations.  Every other value is a JSON-like tree. *)

From Stdlib Require Import String List Bool ZArith Lia Permutation.
Import ListNotations.
Open Scope string_scope.
Open Scope list_scope.
Set Warnings "-register-all".

(** ** Values *)

Inductive value : Type :=
| VUndef                                  (* [undefined] / absent *)
| VStr (s : string)
| VNum (z : Z)
| VBool (b : bool)
| VArr (xs : list value)
| VObj (m : list (string * value))        (* a plain object literal *)
| VRef (l : nat)                          (* a string map held in the heap *)
| VToken (t : nat).                       (* a deferred value (token) *)

Definition obj := list (string * value).

(** A string map such as [{ [key: string]: string }]. *)
Definition smap := list (string * string).

(** The heap of string-map objects, indexed by location. *)
Definition heap := list smap.

Definition heap_get (h : heap) (l : nat) : smap := nth l h [].

Fixpoint heap_upd (h : heap) (l : nat) (f : smap -> smap) : heap :=
  match h, l with
  | [], _ => []
  | m :: t, 0 => f m :: t
  | m :: t, S l' => m :: heap_upd t l' f
  end.

Definition alloc (h : heap) (m : smap) : heap * nat := (app h [m], length h).

(** ** Own properties of plain objects *)

Section Assoc.
Context {A : Type}.

Fixpoint assoc (k : string) (m : list (string * A)) : option A :=
  match m with
  | [] => None
  | (k', v) :: t => if String.eqb k k' then Some v else assoc k t
  end.

(** [CreateDataProperty]: overwrite in place, or append a new key. *)
Fixpoint define_prop (m : list (string * A)) (k : string) (v : A)
  : list (string * A) :=
  match m with
  | [] => [(k, v)]
  | (k', v') :: t =>
      if String.eqb k k' then (k', v) :: t else (k', v') :: define_prop t k v
  end.

(** Assignment [o[k] = v] on a plain object, seen through its own
    properties.  An own property under [k] is a writable data property and is
    overwritten in place; this holds for an own property named ["__proto__"]
    too (one that [JSON.parse] or a computed key creates).  Without such an
    own property, the key ["__proto__"] reaches the accessor inherited from
    [Object.prototype], which never creates an own property: a primitive value
    is ignored, and an object value replaces the prototype, which the
    own-property view does not record. *)
Definition js_assign (m : list (string * A)) (k : string) (v : A)
  : list (string * A) :=
  if String.eqb k "__proto__" then
    match assoc k m with
    | Some _ => define_prop m k v
    | None => m
    end
  else define_prop m k v.

Fixpoint nodup_keys (m : list (string * A)) : bool :=
  match m with
  | [] => true
  | (k, _) :: t => negb (existsb (String.eqb k) (map fst t)) && nodup_keys t
  end.
End Assoc.

(** Properties every plain object inherits from [Object.prototype]. *)
Definition object_prototype_keys : list string :=
  ["constructor"; "__defineGetter__"; "__defineSetter__"; "hasOwnProperty";
   "__lookupGetter__"; "__lookupSetter__"; "isPrototypeOf";
   "propertyIsEnumerable"; "toString"; "valueOf"; "__proto__";
   "toLocaleString"].

(** The result of a property read [o[k]] on a string map. *)
Inductive lookup_result : Type :=
| Found (s : string)            (* an own property *)
| Inherited (member : string)   (* a member of [Object.prototype] *)
| Undefined.

Definition js_get (m : smap) (k : string) : lookup_result :=
  match assoc k m with
  | Some s => Found s
  | None =>
      if existsb (String.eqb k) object_prototype_keys then Inherited k
      else Undefined
  end.

(** ** The record *)

Record ApiObjectMetadataDefinition : Type := {
  name : value;
  namespace : value;
  labels : nat;                       (* location of the labels object *)
  annotations : nat;                  (* location of the annotations object *)
  additionalAttributes : obj
}.

Definition state := (heap * ApiObjectMetadataDefinition)%type.

Definition prop_or_undef (o : obj) (k : string) : value :=
  match assoc k o with Some v => v | None => VUndef end.

Definition string_or_undef (v : value) : bool :=
  match v with VUndef | VStr _ => true | _ => false end.

Fixpoint string_entries (m : obj) : option smap :=
  match m with
  | [] => Some []
  | (k, VStr s) :: t =>
      match string_entries t with Some t' => Some ((k, s) :: t') | None => None end
  | _ :: _ => None
  end.

(** [options.<k> ?? { }]: the object found under key [k] of the options, or a
    fresh empty object.  An object literal in the options becomes a heap
    object, and the options keep a reference to that same object.  [None]
    means the value lies outside the declared type [{ [key: string]: string }]. *)
Definition init_map (h : heap) (o : obj) (k : string) : option (heap * nat * obj) :=
  match assoc k o with
  | None | Some VUndef => let '(h', l) := alloc h [] in Some (h', l, o)
  | Some (VRef l) => if Nat.ltb l (length h) then Some (h, l, o) else None
  | Some (VObj m) =>
      match string_entries m with
      | Some sm =>
          if nodup_keys sm then
            let '(h', l) := alloc h sm in Some (h', l, define_prop o k (VRef l))
          else None
      | None => None
      end
  | Some _ => None
  end.

(** [constructor(options: ApiObjectMetadata = { })].  [None] stands for
    options outside the type [ApiObjectMetadata] (duplicate keys, a [name] or
    [namespace] that is not a string, labels or annotations that are not
    string maps). *)
Definition construct (h : heap) (options : option obj) : option state :=
  let o := match options with Some o => o | None => [] end in
  if negb (nodup_keys o) then None else
  if negb (string_or_undef (prop_or_undef o "name")) then None else
  if negb (string_or_undef (prop_or_undef o "namespace")) then None else
  match init_map h o "labels" with
  | None => None
  | Some (h1, ll, o1) =>
      match init_map h1 o1 "annotations" with
      | None => None
      | Some (h2, la, o2) =>
          Some (h2, {| name := prop_or_undef o "name";
                       labels := ll;
                       annotations := la;
                       namespace := prop_or_undef o "namespace";
                       additionalAttributes := o2 |})
      end
  end.

(** [addLabel(key, value)]: [this.labels[key] = value]. *)
Definition addLabel (s : state) (key v : string) : state :=
  let '(h, r) := s in (heap_upd h (labels r) (fun m => js_assign m key v), r).

(** [getLabel(key)]: [this.labels[key]]. *)
Definition getLabel (s : state) (key : string) : lookup_result :=
  let '(h, r) := s in js_get (heap_get h (labels r)) key.

(** [addAnnotation(key, value)]: [this.annotations[key] = value]. *)
Definition addAnnotation (s : state) (key v : string) : state :=
  let '(h, r) := s in
  (heap_upd h (annotations r) (fun m => js_assign m key v), r).

(** [add(key, value)]: [this._additionalAttributes[key] = value]. *)
Definition add (s : state) (key : string) (v : value) : state :=
  let '(h, r) := s in
  (h, {| name := name r; namespace := namespace r; labels := labels r;
         annotations := annotations r;
         additionalAttributes := js_assign (additionalAttributes r) key v |}).

(** ** Outcomes of [toJson] *)

Inductive result (A : Type) : Type :=
| Ok (a : A)
| Err (e : string).
Arguments Ok {A} a.
Arguments Err {A} e.

Definition bind {A B} (r : result A) (f : A -> result B) : result B :=
  match r with Ok a => f a | Err e => Err e end.

Notation "x <- r ;; k" := (bind r (fun x => k))
  (at level 61, r at next level, right associativity).

(** ** The collaborators [resolve] and [sanitizeValue]

    [_resolve.ts] and [_util.ts] are not part of the sources at hand. *)

Section Resolve.
(** The concrete value each deferred value stands for, or the failure its
    resolution raises. *)
Variable resolve_token : nat -> result value.

(** Modelled from the spec: [resolve] of [_resolve.ts] (missing), which
    replaces every deferred value by its concrete value, recursing into
    mappings and sequences, leaves concrete values as they are, and lets a
    failure of a deferred value propagate. *)
Fixpoint resolve (h : heap) (v : value) : result value :=
  match v with
  | VArr xs =>
      xs' <- (fix go (xs : list value) : result (list value) :=
                match xs with
                | [] => Ok []
                | x :: t => x' <- resolve h x ;; t' <- go t ;; Ok (x' :: t')
                end) xs ;;
      Ok (VArr xs')
  | VObj m =>
      m' <- (fix go (m : obj) : result obj :=
               match m with
               | [] => Ok []
               | (k, x) :: t => x' <- resolve h x ;; t' <- go t ;; Ok ((k, x') :: t')
               end) m ;;
      Ok (VObj m')
  | VRef l => Ok (VObj (map (fun '(k, s) => (k, VStr s)) (heap_get h l)))
  | VToken t => resolve_token t
  | _ => Ok v
  end.
End Resolve.

Record SanitizeOptions : Type := {
  filterEmptyArrays : bool;
  filterEmptyObjects : bool
}.

(** Modelled from the spec: [sanitizeValue] of [_util.ts] (missing).  Bottom
    up, it removes from every mapping the entries whose sanitized value is
    absent, and, as the two flags ask, the entries whose sanitized value is an
    empty sequence or an empty mapping; elements of sequences are sanitized in
    place. *)
Definition removed (opts : SanitizeOptions) (v : value) : bool :=
  match v with
  | VUndef => true
  | VArr [] => filterEmptyArrays opts
  | VObj [] => filterEmptyObjects opts
  | _ => false
  end.

Fixpoint sanitizeValue (opts : SanitizeOptions) (v : value) : value :=
  match v with
  | VArr xs => VArr (map (sanitizeValue opts) xs)
  | VObj m =>
      VObj ((fix go (m : obj) : obj :=
               match m with
               | [] => []
               | (k, x) :: t =>
                   let x' := sanitizeValue opts x in
                   if removed opts x' then go t else (k, x') :: go t
               end) m)
  | _ => v
  end.

(** ** [toJson] *)

(** Object literals with spread: [{ ...src, k: v, ... }]. *)
Inductive prop_def : Type :=
| PSpread (src : obj)
| PProp (k : string) (v : value).

Definition obj_literal (ps : list prop_def) : obj :=
  fold_left (fun o p =>
               match p with
               | PSpread src => fold_left (fun o '(k, v) => define_prop o k v) src o
               | PProp k v => define_prop o k v
               end) ps [].

Definition toJson_options : SanitizeOptions :=
  {| filterEmptyArrays := true; filterEmptyObjects := true |}.

Definition toJson (resolve_token : nat -> result value) (s : state) : result value :=
  let '(h, r) := s in
  let sanitize := sanitizeValue toJson_options in
  x <- resolve resolve_token h
         (VObj (obj_literal [PSpread (additionalAttributes r);
                             PProp "name" (name r);
                             PProp "namespace" (namespace r);
                             PProp "annotations" (VRef (annotations r));
                             PProp "labels" (VRef (labels r))])) ;;
  Ok (sanitize x).

(** [toJson] with its two collaborators left as the interfaces they are,
    either of which may throw: [resolve_c] stands for [resolve] (on the
    current heap) and [sanitize_c] for [sanitizeValue].  The body is the
    source's [sanitizeValue(resolve({ ... }), { filterEmptyArrays: true,
    filterEmptyObjects: true })], with no handler around either call. *)
Section Collaborators.
Variable resolve_c : value -> result value.
Variable sanitize_c : SanitizeOptions -> value -> result value.

Definition toJson_with (r : ApiObjectMetadataDefinition) : result value :=
  x <- resolve_c
         (VObj (obj_literal [PSpread (additionalAttributes r);
                             PProp "name" (name r);
                             PProp "namespace" (namespace r);
                             PProp "annotations" (VRef (annotations r));
                             PProp "labels" (VRef (labels r))])) ;;
  sanitize_c toJson_options x.
End Collaborators.

(** ** Operations as steps of the record *)

Inductive op : Type :=
| OAddLabel (key v : string)
| OGetLabel (key : string)
| OAddAnnotation (key v : string)
| OAdd (key : string) (v : value)
| OToJson.

Inductive output : Type :=
| NoOutput
| LabelOut (r : lookup_result)
| JsonOut (r : result value).

Section Exec.
Variable resolve_token : nat -> result value.

Definition exec (s : state) (o : op) : state * output :=
  match o with
  | OAddLabel k v => (addLabel s k v, NoOutput)
  | OGetLabel k => (s, LabelOut (getLabel s k))
  | OAddAnnotation k v => (addAnnotation s k v, NoOutput)
  | OAdd k v => (add s k v, NoOutput)
  | OToJson => (s, JsonOut (toJson resolve_token s))
  end.

Fixpoint run (s : state) (ops : list op) : state * list output :=
  match ops with
  | [] => (s, [])
  | o :: t =>
      let '(s1, out) := exec s o in
      let '(s2, outs) := run s1 t in (s2, out :: outs)
  end.

(** Records reachable from the constructor by a sequence of operations. *)
Definition reachable (s : state) : Prop :=
  exists h options s0 ops,
    construct h options = Some s0 /\ fst (run s0 ops) = s.
End Exec.

Definition doc_get (d : value) (k : string) : value :=
  match d with
  | VObj m => match assoc k m with Some v => v | None => VUndef end
  | _ => VUndef
  end.

Definition no_tokens : nat -> result value := fun t => Err "unresolvable token".

(** ** Entry-wise views, the merged mapping, invariants *)

Fixpoint resolve_entries (f : value -> result value) (m : obj) : result obj :=
  match m with
  | [] => Ok []
  | (k, x) :: t => x' <- f x ;; t' <- resolve_entries f t ;; Ok ((k, x') :: t')
  end.

Fixpoint sanitize_entries (f : value -> value) (opts : SanitizeOptions) (m : obj) : obj :=
  match m with
  | [] => []
  | (k, x) :: t =>
      let x' := f x in
      if removed opts x' then sanitize_entries f opts t else (k, x') :: sanitize_entries f opts t
  end.

(** The mapping [toJson] builds before resolving it. *)
Definition merged (r : ApiObjectMetadataDefinition) : obj :=
  obj_literal [PSpread (additionalAttributes r);
               PProp "name" (name r);
               PProp "namespace" (namespace r);
               PProp "annotations" (VRef (annotations r));
               PProp "labels" (VRef (labels r))].

Definition snapshot_of (rt : nat -> result value) (h : heap) (m : obj) : result value :=
  x <- resolve rt h (VObj m) ;; Ok (sanitizeValue toJson_options x).

(** Two snapshot outcomes agree: both fail, or both succeed with documents
    that give every key the same value. *)
Definition same_snapshot (r1 r2 : result value) : Prop :=
  match r1, r2 with
  | Ok d1, Ok d2 => forall j, doc_get d1 j = doc_get d2 j
  | Err _, Err _ => True
  | _, _ => False
  end.

(** The invariant of reachable records. *)
Definition inv (s : state) : Prop :=
  let '(h, r) := s in
  nodup_keys (additionalAttributes r) = true /\
  string_or_undef (name r) = true /\
  string_or_undef (namespace r) = true /\
  labels r < length h /\ annotations r < length h.

Definition entry_rel (f : value -> result value) (a b : string * value) : Prop :=
  fst a = fst b /\ f (snd a) = Ok (snd b).

Definition entry_in_doc (rt : nat -> result value) (h : heap) (ox : option value) : value :=
  match ox with
  | Some x =>
      match resolve rt h x with
      | Ok x' =>
          let y := sanitizeValue toJson_options x' in
          if removed toJson_options y then VUndef else y
      | Err _ => VUndef
      end
  | None => VUndef
  end.

Definition reserved_keys : list string := ["name"; "namespace"; "labels"; "annotations"].

(** The merge as the spec words it: a spread copy of [additionalAttributes],
    then [name], [namespace], [annotations] and [labels] written over it, in
    this order. *)
Definition spec_merge (r : ApiObjectMetadataDefinition) : obj :=
  fold_left (fun o '(k, v) => define_prop o k v)
    [("name", name r); ("namespace", namespace r);
     ("annotations", VRef (annotations r)); ("labels", VRef (labels r))]
    (fold_left (fun o '(k, v) => define_prop o k v) (additionalAttributes r) []).

(** The record [new ApiObjectMetadataDefinition()] on an empty heap. *)
Definition fresh_record : ApiObjectMetadataDefinition :=
  {| name := VUndef; namespace := VUndef; labels := 0; annotations := 1;
     additionalAttributes := [] |}.

(** The state of [new ApiObjectMetadataDefinition()] on an empty heap. *)
Definition fresh_state : state := ([[]; []], fresh_record).

(** ** Sample runs *)

Example ex_nested_empty :
  option_map (fun s => toJson no_tokens (add s "x" (VObj [("a", VObj [("b", VArr [])])])))
    (construct [] None) = Some (Ok (VObj [])).
Proof. reflexivity. Qed.

Example ex_spec_example :
  option_map (fun s => toJson no_tokens (addAnnotation s "team" "x"))
    (construct [] (Some [("name", VStr "foo"); ("labels", VObj [("app", VStr "bar")])]))
  = Some (Ok (VObj [("name", VStr "foo"); ("labels", VObj [("app", VStr "bar")]);
                    ("annotations", VObj [("team", VStr "x")])])).
Proof. reflexivity. Qed.

Example ex_sanitize_failure :
  toJson_with (resolve no_tokens [[("constructor", "v")]; []])
    (fun _ _ => Err "can't render non-simple object") fresh_record
  = Err "can't render non-simple object".
Proof. reflexivity. Qed.

(** ** Lemmas on own properties *)

Section AssocLemmas.
Context {A : Type}.

Lemma assoc_define_same (m : list (string * A)) k v :
  assoc k (define_prop m k v) = Some v.
Proof.
  induction m as [|[k' v'] t IH]; simpl.
  - rewrite String.eqb_refl; reflexivity.
  - destruct (String.eqb_spec k k') as [->|Hne]; simpl.
    + rewrite String.eqb_refl; reflexivity.
    + apply String.eqb_neq in Hne; rewrite Hne; exact IH.
Qed.

Lemma assoc_define_other (m : list (string * A)) k k' v :
  k <> k' -> assoc k (define_prop m k' v) = assoc k m.
Proof.
  intros Hne; induction m as [|[k0 v0] t IH]; simpl.
  - apply String.eqb_neq in Hne; rewrite Hne; reflexivity.
  - destruct (String.eqb_spec k' k0) as [->|Hne']; simpl.
    + apply String.eqb_neq in Hne; rewrite Hne; reflexivity.
    + destruct (String.eqb k k0); [reflexivity | exact IH].
Qed.

Lemma map_fst_define (m : list (string * A)) k v :
  In k (map fst m) -> map fst (define_prop m k v) = map fst m.
Proof.
  induction m as [|[k0 v0] t IH]; simpl; intros Hin; [contradiction|].
  destruct (String.eqb_spec k k0) as [->|Hne]; simpl; [reflexivity|].
  f_equal; apply IH; destruct Hin; [congruence | assumption].
Qed.

Lemma define_absent (m : list (string * A)) k v :
  ~ In k (map fst m) -> define_prop m k v = m ++ [(k, v)].
Proof.
  induction m as [|[k0 v0] t IH]; simpl; intros Hin; [reflexivity|].
  destruct (String.eqb_spec k k0) as [->|Hne]; [tauto|].
  f_equal; apply IH; tauto.
Qed.

Lemma nodup_keys_spec (m : list (string * A)) :
  nodup_keys m = true <-> NoDup (map fst m).
Proof.
  induction m as [|[k v] t IH]; simpl.
  - split; [constructor | reflexivity].
  - rewrite andb_true_iff, negb_true_iff, IH; split.
    + intros [Hex Hnd]; constructor; [|assumption].
      intros Hin.
      assert (Ht : existsb (String.eqb k) (map fst t) = true)
        by (apply existsb_exists; exists k; split; [assumption | apply String.eqb_refl]).
      congruence.
    + intros Hnd; inversion Hnd as [|? ? Hnin Hnd']; subst; split; [|assumption].
      destruct (existsb (String.eqb k) (map fst t)) eqn:E; [|reflexivity].
      apply existsb_exists in E as [x [Hx Heq]].
      apply String.eqb_eq in Heq; subst; contradiction.
Qed.

Lemma nodup_define (m : list (string * A)) k v :
  nodup_keys m = true -> nodup_keys (define_prop m k v) = true.
Proof.
  rewrite !nodup_keys_spec; intros Hnd.
  destruct (in_dec String.string_dec k (map fst m)) as [Hin|Hin].
  - rewrite map_fst_define by assumption; exact Hnd.
  - rewrite define_absent, map_app by assumption; simpl.
    apply NoDup_app; [assumption | repeat constructor; auto |].
    intros x Hx [<-|[]]; contradiction.
Qed.

Lemma nodup_js_assign (m : list (string * A)) k v :
  nodup_keys m = true -> nodup_keys (js_assign m k v) = true.
Proof.
  unfold js_assign; destruct (String.eqb k "__proto__");
    [destruct (assoc k m); [apply nodup_define | auto] | apply nodup_define].
Qed.

Lemma assoc_in (m : list (string * A)) k v :
  NoDup (map fst m) -> In (k, v) m -> assoc k m = Some v.
Proof.
  induction m as [|[k0 v0] t IH]; simpl; intros Hnd Hin; [contradiction|].
  inversion Hnd as [|? ? Hnin Hnd']; subst.
  destruct Hin as [Heq|Hin].
  - inversion Heq; subst; rewrite String.eqb_refl; reflexivity.
  - destruct (String.eqb_spec k k0) as [->|Hne]; [|auto].
    exfalso; apply Hnin; apply (in_map fst) in Hin; exact Hin.
Qed.

(** Spreading an object with distinct keys into a fresh literal copies it. *)
Lemma spread_nodup (src o : list (string * A)) :
  NoDup (map fst (o ++ src)) ->
  fold_left (fun o '(k, v) => define_prop o k v) src o = o ++ src.
Proof.
  revert o; induction src as [|[k v] t IH]; intros o Hnd; simpl.
  - rewrite app_nil_r; reflexivity.
  - rewrite define_absent.
    + rewrite IH; [rewrite <- app_assoc; reflexivity|].
      rewrite <- app_assoc; exact Hnd.
    + intros Hin; rewrite map_app in Hnd; simpl in Hnd.
      apply NoDup_remove_2 in Hnd; apply Hnd, in_or_app; left; exact Hin.
Qed.
End AssocLemmas.

(** ** Lemmas on [resolve] and [sanitizeValue] *)

Lemma resolve_obj rt h m :
  resolve rt h (VObj m) = (m' <- resolve_entries (resolve rt h) m ;; Ok (VObj m')).
Proof.
  cbn [resolve]; f_equal.
  induction m as [|[k x] t IH]; cbn; [reflexivity|].
  destruct (resolve rt h x); cbn; [rewrite IH; reflexivity | reflexivity].
Qed.

Lemma sanitizeValue_obj opts m :
  sanitizeValue opts (VObj m) = VObj (sanitize_entries (sanitizeValue opts) opts m).
Proof.
  cbn [sanitizeValue]; f_equal.
  induction m as [|[k x] t IH]; cbn; [reflexivity|].
  rewrite IH; reflexivity.
Qed.

Lemma snapshot_of_entries rt h m :
  snapshot_of rt h m =
  (m' <- resolve_entries (resolve rt h) m ;;
   Ok (VObj (sanitize_entries (sanitizeValue toJson_options) toJson_options m'))).
Proof.
  unfold snapshot_of; rewrite resolve_obj.
  destruct (resolve_entries (resolve rt h) m); unfold bind; [|reflexivity].
  rewrite sanitizeValue_obj; reflexivity.
Qed.

Lemma toJson_snapshot rt h r : toJson rt (h, r) = snapshot_of rt h (merged r).
Proof. reflexivity. Qed.

Lemma resolve_entries_ok f m m' :
  resolve_entries f m = Ok m' -> Forall2 (entry_rel f) m m'.
Proof.
  revert m'; induction m as [|[k x] t IH]; cbn; intros m' H.
  - inversion H; constructor.
  - destruct (f x) as [x'|] eqn:Ex; cbn in H; [|discriminate].
    destruct (resolve_entries f t) as [t'|] eqn:Et; cbn in H; [|discriminate].
    inversion H; subst; constructor; [split; auto | auto].
Qed.

Lemma resolve_entries_err f m e :
  resolve_entries f m = Err e -> exists k x e', In (k, x) m /\ f x = Err e'.
Proof.
  induction m as [|[k x] t IH]; cbn; intros H; [discriminate|].
  destruct (f x) as [x'|e'] eqn:Ex; cbn in H.
  - destruct (resolve_entries f t) as [t'|e''] eqn:Et; cbn in H; [discriminate|].
    destruct (IH H) as (k' & x'' & e3 & Hin & Hf).
    exists k', x'', e3; split; [right; assumption | assumption].
  - exists k, x, e'; split; [left; reflexivity | assumption].
Qed.

Lemma Forall2_entry_keys f m m' :
  Forall2 (entry_rel f) m m' -> map fst m = map fst m'.
Proof.
  induction 1 as [|a b t t' [Hk _] _ IH]; cbn; [reflexivity|]; congruence.
Qed.

Lemma Forall2_entry_assoc f m m' j :
  Forall2 (entry_rel f) m m' ->
  match assoc j m with
  | Some x => exists x', assoc j m' = Some x' /\ f x = Ok x'
  | None => assoc j m' = None
  end.
Proof.
  induction 1 as [|[k x] [k' x'] t t' [Hk Hf] _ IH]; cbn in *; [reflexivity|].
  subst k'; destruct (String.eqb j k); [exists x'; split; auto | exact IH].
Qed.

Lemma assoc_sanitize_entries g opts m j :
  NoDup (map fst m) ->
  assoc j (sanitize_entries g opts m) =
  match assoc j m with
  | Some x => if removed opts (g x) then None else Some (g x)
  | None => None
  end.
Proof.
  induction m as [|[k x] t IH]; cbn; intros Hnd; [reflexivity|].
  inversion Hnd as [|? ? Hnin Hnd']; subst.
  destruct (String.eqb_spec j k) as [->|Hne].
  - destruct (removed opts (g x)) eqn:Er; cbn.
    + rewrite IH by assumption.
      destruct (assoc k t) eqn:Ea; [|reflexivity].
      exfalso; apply Hnin; clear -Ea; induction t as [|[k0 v0] t IHt]; cbn in *;
        [discriminate|].
      destruct (String.eqb_spec k k0); [left; auto | right; auto].
    + rewrite String.eqb_refl; reflexivity.
  - apply String.eqb_neq in Hne.
    destruct (removed opts (g x)); cbn; rewrite ?Hne; apply IH; assumption.
Qed.

Lemma snapshot_get rt h m d j :
  NoDup (map fst m) -> snapshot_of rt h m = Ok d ->
  doc_get d j = entry_in_doc rt h (assoc j m).
Proof.
  intros Hnd; rewrite snapshot_of_entries.
  destruct (resolve_entries (resolve rt h) m) as [m'|e] eqn:E; cbn; [|discriminate].
  intros Hd; inversion Hd; subst d; clear Hd; cbn.
  apply resolve_entries_ok in E.
  pose proof (Forall2_entry_keys _ _ _ E) as Hk.
  rewrite assoc_sanitize_entries by (rewrite <- Hk; exact Hnd).
  pose proof (Forall2_entry_assoc _ _ _ j E) as Hj.
  destruct (assoc j m) as [x|]; cbn.
  - destruct Hj as (x' & -> & ->); destruct (removed _ _); reflexivity.
  - rewrite Hj; reflexivity.
Qed.

Lemma snapshot_ok_entry rt h m d k x :
  snapshot_of rt h m = Ok d -> assoc k m = Some x -> exists x', resolve rt h x = Ok x'.
Proof.
  rewrite snapshot_of_entries.
  destruct (resolve_entries (resolve rt h) m) as [m'|e] eqn:E; cbn; [|discriminate].
  intros _ Hx; apply resolve_entries_ok in E.
  pose proof (Forall2_entry_assoc _ _ _ k E) as Hk; rewrite Hx in Hk.
  destruct Hk as (x' & _ & Hr); exists x'; exact Hr.
Qed.

Lemma snapshot_err_entry rt h m e :
  snapshot_of rt h m = Err e -> exists k x e', In (k, x) m /\ resolve rt h x = Err e'.
Proof.
  rewrite snapshot_of_entries.
  destruct (resolve_entries (resolve rt h) m) as [m'|e0] eqn:E; cbn; [discriminate|].
  intros _; exact (resolve_entries_err _ _ _ E).
Qed.

(** Snapshots only depend on the lookups of the merged mapping. *)
Lemma same_lookups_same_snapshot rt h m0 m1 :
  NoDup (map fst m0) -> NoDup (map fst m1) ->
  (forall j, assoc j m0 = assoc j m1) ->
  same_snapshot (snapshot_of rt h m0) (snapshot_of rt h m1).
Proof.
  intros Hn0 Hn1 Hj; unfold same_snapshot.
  destruct (snapshot_of rt h m0) as [d0|e0] eqn:E0,
           (snapshot_of rt h m1) as [d1|e1] eqn:E1; auto.
  - intros j; rewrite (snapshot_get _ _ _ _ j Hn0 E0), (snapshot_get _ _ _ _ j Hn1 E1).
    rewrite Hj; reflexivity.
  - destruct (snapshot_err_entry _ _ _ _ E1) as (k & x & e' & Hin & Hr).
    apply (assoc_in _ _ _ Hn1) in Hin; rewrite <- Hj in Hin.
    destruct (snapshot_ok_entry _ _ _ _ _ _ E0 Hin) as [x' Hx']; congruence.
  - destruct (snapshot_err_entry _ _ _ _ E0) as (k & x & e' & Hin & Hr).
    apply (assoc_in _ _ _ Hn0) in Hin; rewrite Hj in Hin.
    destruct (snapshot_ok_entry _ _ _ _ _ _ E1 Hin) as [x' Hx']; congruence.
Qed.

(** ** The merged mapping *)

Lemma merged_eq r :
  nodup_keys (additionalAttributes r) = true ->
  merged r =
  define_prop (define_prop (define_prop (define_prop (additionalAttributes r)
    "name" (name r)) "namespace" (namespace r))
    "annotations" (VRef (annotations r))) "labels" (VRef (labels r)).
Proof.
  intros Hnd; unfold merged, obj_literal; cbn [fold_left].
  rewrite (spread_nodup _ []); [reflexivity|].
  apply nodup_keys_spec; exact Hnd.
Qed.

Lemma merged_nodup r :
  nodup_keys (additionalAttributes r) = true -> NoDup (map fst (merged r)).
Proof.
  intros Hnd; rewrite merged_eq by exact Hnd; apply nodup_keys_spec.
  repeat apply nodup_define; exact Hnd.
Qed.

Lemma merged_assoc r j :
  nodup_keys (additionalAttributes r) = true ->
  assoc j (merged r) =
  if String.eqb j "labels" then Some (VRef (labels r))
  else if String.eqb j "annotations" then Some (VRef (annotations r))
  else if String.eqb j "namespace" then Some (namespace r)
  else if String.eqb j "name" then Some (name r)
  else assoc j (additionalAttributes r).
Proof.
  intros Hnd; rewrite merged_eq by exact Hnd.
  destruct (String.eqb_spec j "labels") as [->|H1]; [apply assoc_define_same|].
  rewrite assoc_define_other by exact H1.
  destruct (String.eqb_spec j "annotations") as [->|H2]; [apply assoc_define_same|].
  rewrite assoc_define_other by exact H2.
  destruct (String.eqb_spec j "namespace") as [->|H3]; [apply assoc_define_same|].
  rewrite assoc_define_other by exact H3.
  destruct (String.eqb_spec j "name") as [->|H4]; [apply assoc_define_same|].
  rewrite assoc_define_other by exact H4; reflexivity.
Qed.

(** ** The invariant of reachable records *)

Lemma heap_upd_length h l f : length (heap_upd h l f) = length h.
Proof.
  revert l; induction h as [|m t IH]; intros [|l]; cbn; auto.
Qed.

Lemma init_map_inv h o k h' l o' :
  init_map h o k = Some (h', l, o') -> nodup_keys o = true ->
  nodup_keys o' = true /\ l < length h' /\ length h <= length h'.
Proof.
  unfold init_map, alloc; intros E Hnd.
  destruct (assoc k o) as [[| | | | | m | l0 | ]|]; try discriminate.
  - cbn in E; inversion E; subst; rewrite length_app; cbn; repeat split; auto; lia.
  - destruct (string_entries m) as [sm|]; [|discriminate].
    destruct (nodup_keys sm); [|discriminate].
    inversion E; subst; rewrite length_app; cbn.
    repeat split; [apply nodup_define; exact Hnd | lia | lia].
  - destruct (Nat.ltb l0 (length h)) eqn:Hlt; [|discriminate].
    apply Nat.ltb_lt in Hlt; inversion E; subst; repeat split; auto.
  - cbn in E; inversion E; subst; rewrite length_app; cbn; repeat split; auto; lia.
Qed.

Lemma construct_inv h options s :
  construct h options = Some s -> inv s.
Proof.
  unfold construct; set (o := match options with Some o => o | None => [] end).
  destruct (nodup_keys o) eqn:Hnd; cbn; [|discriminate].
  destruct (string_or_undef (prop_or_undef o "name")) eqn:Hn; cbn; [|discriminate].
  destruct (string_or_undef (prop_or_undef o "namespace")) eqn:Hns; cbn; [|discriminate].
  destruct (init_map h o "labels") as [[[h1 ll] o1]|] eqn:E1; [|discriminate].
  destruct (init_map h1 o1 "annotations") as [[[h2 la] o2]|] eqn:E2; [|discriminate].
  intros Hs; inversion Hs; subst s; clear Hs.
  destruct (init_map_inv _ _ _ _ _ _ E1 Hnd) as (Hnd1 & Hl1 & Hh1).
  destruct (init_map_inv _ _ _ _ _ _ E2 Hnd1) as (Hnd2 & Hl2 & Hh2).
  cbn; repeat split; auto; lia.
Qed.

Lemma exec_inv rt s o : inv s -> inv (fst (exec rt s o)).
Proof.
  destruct s as [h r]; destruct o; cbn; auto;
    intros (Hnd & Hn & Hns & Hl & Ha); cbn;
    rewrite ?heap_upd_length; repeat split; auto.
  apply nodup_js_assign; exact Hnd.
Qed.

Lemma run_inv rt s ops : inv s -> inv (fst (run rt s ops)).
Proof.
  revert s; induction ops as [|o t IH]; intros s Hs; cbn; [exact Hs|].
  destruct (exec rt s o) as [s1 out] eqn:E.
  destruct (run rt s1 t) as [s2 outs] eqn:E2; cbn.
  change s2 with (fst (s2, outs)); rewrite <- E2; apply IH.
  change s1 with (fst (s1, out)); rewrite <- E; apply exec_inv; exact Hs.
Qed.

Lemma reachable_inv rt s : reachable rt s -> inv s.
Proof.
  intros (h & options & s0 & ops & Hc & <-).
  apply run_inv, (construct_inv h options), Hc.
Qed.

Lemma heap_get_middle h m t : heap_get (h ++ m :: t) (length h) = m.
Proof. unfold heap_get; apply nth_middle. Qed.

Lemma construct_default h :
  construct h None =
  Some ((h ++ [[]]) ++ [[]],
        {| name := VUndef; namespace := VUndef; labels := length h;
           annotations := length (h ++ [[]]); additionalAttributes := [] |}).
Proof. reflexivity. Qed.

Lemma construct_empty_options h : construct h (Some []) = construct h None.
Proof. reflexivity. Qed.

Lemma heap_get_default_labels h :
  heap_get ((h ++ [[]]) ++ [[]]) (length h) = [].
Proof. rewrite <- app_assoc; apply heap_get_middle. Qed.

Lemma heap_get_default_annotations h :
  heap_get ((h ++ [[]]) ++ [[]]) (length (h ++ [[]])) = [].
Proof. apply heap_get_middle. Qed.

(** ** Frame lemmas *)

Lemma heap_get_upd_same h l f :
  l < length h -> heap_get (heap_upd h l f) l = f (heap_get h l).
Proof.
  unfold heap_get; revert l; induction h as [|m t IH]; intros [|l] Hl; cbn in *;
    try lia; [reflexivity|].
  apply IH; lia.
Qed.

Lemma heap_get_upd_other h l l' f :
  l' <> l -> heap_get (heap_upd h l f) l' = heap_get h l'.
Proof.
  unfold heap_get; revert l l'; induction h as [|m t IH]; intros [|l] [|l'] Hne;
    cbn; auto; lia.
Qed.

Lemma run_fields rt s ops :
  name (snd (fst (run rt s ops))) = name (snd s) /\
  namespace (snd (fst (run rt s ops))) = namespace (snd s) /\
  labels (snd (fst (run rt s ops))) = labels (snd s) /\
  annotations (snd (fst (run rt s ops))) = annotations (snd s).
Proof.
  revert s; induction ops as [|o t IH]; intros s; cbn; [auto|].
  destruct (exec rt s o) as [s1 out] eqn:E.
  destruct (run rt s1 t) as [s2 outs] eqn:E2; cbn.
  assert (H1 : name (snd s1) = name (snd s) /\ namespace (snd s1) = namespace (snd s) /\
               labels (snd s1) = labels (snd s) /\
               annotations (snd s1) = annotations (snd s)).
  { destruct s as [h r]; destruct o; cbn in E; inversion E; subst; cbn; auto. }
  specialize (IH s1); rewrite E2 in IH; cbn in IH.
  destruct IH as (? & ? & ? & ?); destruct H1 as (? & ? & ? & ?).
  repeat split; congruence.
Qed.

Lemma js_assign_not_proto {A} (m : list (string * A)) k v :
  k <> "__proto__" -> js_assign m k v = define_prop m k v.
Proof.
  intros Hk; unfold js_assign; apply String.eqb_neq in Hk; rewrite Hk; reflexivity.
Qed.

Lemma assoc_js_assign_other {A} (m : list (string * A)) k j v :
  j <> k -> assoc j (js_assign m k v) = assoc j m.
Proof.
  intros Hj; unfold js_assign.
  destruct (String.eqb k "__proto__"); [destruct (assoc k m)|];
    rewrite ?assoc_define_other by exact Hj; reflexivity.
Qed.


Lemma construct_reachable rt h options s0 ops :
  construct h options = Some s0 -> reachable rt (fst (run rt s0 ops)).
Proof. intros Hc; exists h, options, s0, ops; split; [exact Hc | reflexivity]. Qed.

Lemma fresh_record_reachable rt : reachable rt ([[]; []], fresh_record).
Proof. exact (construct_reachable rt [] None ([[]; []], fresh_record) [] eq_refl). Qed.

(** On keys other than ["__proto__"], [getLabel] reads back what [addLabel]
    wrote. *)
Lemma getLabel_addLabel rt h r k v :
  reachable rt (h, r) -> k <> "__proto__" ->
  getLabel (addLabel (h, r) k v) k = Found v.
Proof.
  intros Hr Hk; destruct (reachable_inv rt _ Hr) as (_ & _ & _ & Hl & _).
  cbn; rewrite heap_get_upd_same by exact Hl.
  unfold js_get; rewrite js_assign_not_proto, assoc_define_same by exact Hk; reflexivity.
Qed.

(** ** Claims *)

(** C1: [toJson] returns [sanitize(resolve(m))], where [m] starts from
    [additionalAttributes] and has [name], [namespace], [annotations] and
    [labels] written over it in this order, and where [sanitize] runs with
    both [filterEmptyArrays] and [filterEmptyObjects] enabled. *)
Theorem toJson_sanitize_resolve_merge rt h r :
  toJson rt (h, r) =
  (x <- resolve rt h (VObj (spec_merge r)) ;;
   Ok (sanitizeValue {| filterEmptyArrays := true; filterEmptyObjects := true |} x)).
Proof. reflexivity. Qed.

(** C3 (code_bug): [getLabel] reads [this.labels[key]] on a plain object, so
    keys naming members of [Object.prototype] are found through the
    prototype: on a fresh record, [getLabel("constructor")] gives the
    inherited [Object] constructor rather than [undefined], and after
    [addLabel("__proto__", "x")] (which the inherited accessor swallows)
    [getLabel("__proto__")] gives [Object.prototype] rather than ["x"]. *)
Theorem getLabel_prototype_members :
  option_map (fun s => (getLabel s "constructor",
                        getLabel (addLabel s "__proto__" "x") "__proto__"))
    (construct [] None)
  = Some (Inherited "constructor", Inherited "__proto__").
Proof. reflexivity. Qed.

(** C4: a record constructed with no options and not mutated has the empty
    document as snapshot: in particular it has no [labels] and no
    [annotations] key. *)
Theorem toJson_default_empty rt h :
  exists s, construct h None = Some s /\
    toJson rt s = Ok (VObj []) /\
    (forall d, toJson rt s = Ok d ->
               doc_get d "labels" = VUndef /\ doc_get d "annotations" = VUndef).
Proof.
  rewrite construct_default; eexists; split; [reflexivity|].
  assert (E : toJson rt ((h ++ [[]]) ++ [[]],
                {| name := VUndef; namespace := VUndef; labels := length h;
                   annotations := length (h ++ [[]]); additionalAttributes := [] |})
              = Ok (VObj [])).
  { unfold toJson; cbn [additionalAttributes name namespace labels annotations].
    cbn [obj_literal fold_left define_prop String.eqb Ascii.eqb Bool.eqb resolve bind].
    rewrite heap_get_default_labels, heap_get_default_annotations; reflexivity. }
  split; [exact E|].
  intros d Hd; rewrite E in Hd; inversion Hd; split; reflexivity.
Qed.

(** C5: two successive snapshots with no operation in between are equal, and
    neither changes the record. *)
Theorem toJson_twice rt s :
  run rt s [OToJson; OToJson] = (s, [JsonOut (toJson rt s); JsonOut (toJson rt s)]).
Proof. reflexivity. Qed.

(** C6: after construction and any sequence of operations, the record's
    [labels] and [annotations] designate existing objects. *)
Theorem labels_annotations_present rt s :
  reachable rt s -> labels (snd s) < length (fst s) /\ annotations (snd s) < length (fst s).
Proof.
  intros Hr; destruct s as [h r].
  destruct (reachable_inv rt _ Hr) as (_ & _ & _ & Hl & Ha); split; assumption.
Qed.

Lemma labels_annotations_present_witness :
  let s := fst (run no_tokens ([[]; []], fresh_record)
                  [OAddLabel "app" "web"; OAdd "custom" (VNum 42); OToJson]) in
  reachable no_tokens s /\ labels (snd s) < length (fst s) /\
  annotations (snd s) < length (fst s).
Proof.
  intros s.
  assert (Hr : reachable no_tokens s)
    by exact (construct_reachable no_tokens [] None ([[]; []], fresh_record)
                [OAddLabel "app" "web"; OAdd "custom" (VNum 42); OToJson] eq_refl).
  split; [exact Hr|].
  exact (labels_annotations_present no_tokens s Hr).
Defined.

(** C8: [toJson] neither catches nor translates a failure of its
    collaborators.  With [resolve] and [sanitizeValue] as interfaces that may
    throw, [toJson] fails with [e] exactly when [resolve] fails with [e], or
    [resolve] succeeds and [sanitizeValue] then fails with [e]; the model
    [toJson] is the instance with the modelled collaborators, where a failure
    of [resolve] comes out unchanged; and [toJson] leaves the record and the
    heap as they were. *)
Theorem toJson_failure_propagates rt h r :
  (forall resolve_c sanitize_c e,
     toJson_with resolve_c sanitize_c r = Err e <->
     resolve_c (VObj (merged r)) = Err e \/
     exists x, resolve_c (VObj (merged r)) = Ok x /\
               sanitize_c toJson_options x = Err e) /\
  toJson rt (h, r) = toJson_with (resolve rt h) (fun o x => Ok (sanitizeValue o x)) r /\
  (forall e, toJson rt (h, r) = Err e <-> resolve rt h (VObj (merged r)) = Err e) /\
  fst (exec rt (h, r) OToJson) = (h, r).
Proof.
  split; [|split; [reflexivity|split; [|reflexivity]]].
  - intros resolve_c sanitize_c e; unfold toJson_with; fold (merged r).
    destruct (resolve_c (VObj (merged r))) as [x|e'] eqn:E; cbn; split.
    + intros Hs; right; exists x; split; [reflexivity | exact Hs].
    + intros [H|(x' & H & Hs)]; [discriminate|]; inversion H; subst; exact Hs.
    + intros H; left; exact H.
    + intros [H|(x' & H & _)]; [exact H | discriminate].
  - intros e; rewrite toJson_snapshot; unfold snapshot_of.
    destruct (resolve rt h (VObj (merged r))); cbn; split; congruence.
Qed.

(** C9: [new ApiObjectMetadataDefinition({ })] followed by [add("custom", 42)]
    has the snapshot [{ custom: 42 }]. *)
Theorem add_custom_snapshot rt h :
  exists s, construct h (Some []) = Some s /\
    toJson rt (add s "custom" (VNum 42)) = Ok (VObj [("custom", VNum 42)]).
Proof.
  rewrite construct_empty_options, construct_default; eexists; split; [reflexivity|].
  unfold add, toJson; cbn [additionalAttributes name namespace labels annotations].
  cbn [js_assign define_prop obj_literal fold_left String.eqb Ascii.eqb Bool.eqb
       resolve bind].
  rewrite heap_get_default_labels, heap_get_default_annotations; reflexivity.
Qed.

(** C7 (counterexample): the record keeps the option objects by reference.
    Passing one object as both [labels] and [annotations], [addLabel] changes
    the annotations too, and the snapshot shows the label under
    [annotations]. *)
Lemma addLabel_aliased_annotations :
  match construct [[]] (Some [("labels", VRef 0); ("annotations", VRef 0)]) with
  | Some s =>
      heap_get (fst (addLabel s "app" "web")) (annotations (snd s))
        <> heap_get (fst s) (annotations (snd s)) /\
      toJson no_tokens (addLabel s "app" "web")
        = Ok (VObj [("labels", VObj [("app", VStr "web")]);
                    ("annotations", VObj [("app", VStr "web")])])
  | None => False
  end.
Proof. vm_compute; split; [discriminate | reflexivity]. Qed.

(** C7 (amended): for a key other than ["__proto__"], [addLabel] writes
    exactly that entry into the labels object, keeps the record's fields and
    every other object of the heap; the change is seen through every
    reference to the labels object.  [addAnnotation] does the same on the
    annotations object; [add] writes only [additionalAttributes].  Along any
    sequence of operations (under any keys, ["__proto__"] included),
    [name], [namespace] and the references to the labels and annotations
    objects never change. *)
Theorem operations_frame rt h r k v x ops :
  reachable rt (h, r) -> k <> "__proto__" ->
  (snd (addLabel (h, r) k v) = r /\
   length (fst (addLabel (h, r) k v)) = length h /\
   heap_get (fst (addLabel (h, r) k v)) (labels r) = define_prop (heap_get h (labels r)) k v /\
   (forall l, l <> labels r -> heap_get (fst (addLabel (h, r) k v)) l = heap_get h l)) /\
  (snd (addAnnotation (h, r) k v) = r /\
   length (fst (addAnnotation (h, r) k v)) = length h /\
   heap_get (fst (addAnnotation (h, r) k v)) (annotations r)
     = define_prop (heap_get h (annotations r)) k v /\
   (forall l, l <> annotations r ->
      heap_get (fst (addAnnotation (h, r) k v)) l = heap_get h l)) /\
  add (h, r) k x =
    (h, {| name := name r; namespace := namespace r; labels := labels r;
           annotations := annotations r;
           additionalAttributes := define_prop (additionalAttributes r) k x |}) /\
  name (snd (fst (run rt (h, r) ops))) = name r /\
  namespace (snd (fst (run rt (h, r) ops))) = namespace r /\
  labels (snd (fst (run rt (h, r) ops))) = labels r /\
  annotations (snd (fst (run rt (h, r) ops))) = annotations r.
Proof.
  intros Hr Hk.
  destruct (reachable_inv rt _ Hr) as (_ & _ & _ & Hl & Ha).
  destruct (run_fields rt (h, r) ops) as (Hn & Hns & Hll & Hla).
  cbn [addLabel addAnnotation add fst snd]; rewrite !js_assign_not_proto by exact Hk.
  repeat split; auto using heap_upd_length, heap_get_upd_other.
  all: rewrite heap_get_upd_same by assumption; apply js_assign_not_proto; exact Hk.
Qed.

Lemma operations_frame_witness :
  reachable no_tokens ([[]; []], fresh_record) /\ "app" <> "__proto__" /\
  snd (addLabel ([[]; []], fresh_record) "app" "web") = fresh_record.
Proof.
  assert (Hr := fresh_record_reachable no_tokens).
  assert (Hk : "app" <> "__proto__") by discriminate.
  split; [exact Hr|]; split; [exact Hk|].
  exact (proj1 (proj1 (operations_frame no_tokens [[]; []] fresh_record "app" "web"
                          (VNum 1) [] Hr Hk))).
Defined.

(** C2: whatever stale [name] entry [additionalAttributes] holds, the
    snapshot gives [name] the value of the typed field (no [name] key, that
    is [undefined], when the typed field is absent). *)
Theorem typed_name_wins rt h r v d :
  reachable rt (h, r) ->
  assoc "name" (additionalAttributes r) = Some v -> v <> name r ->
  toJson rt (h, r) = Ok d ->
  doc_get d "name" = name r.
Proof.
  intros Hr _ _ Hd.
  destruct (reachable_inv rt _ Hr) as (Hnd & Hn & _ & _ & _).
  rewrite toJson_snapshot in Hd.
  rewrite (snapshot_get _ _ _ _ "name" (merged_nodup r Hnd) Hd).
  rewrite merged_assoc by exact Hnd; cbn.
  destruct (name r); try discriminate; reflexivity.
Qed.

Lemma typed_name_wins_witness :
  let s := add ([[]; []], fresh_record) "name" (VStr "stale") in
  reachable no_tokens s /\
  assoc "name" (additionalAttributes (snd s)) = Some (VStr "stale") /\
  VStr "stale" <> name (snd s) /\
  toJson no_tokens s = Ok (VObj []) /\
  doc_get (VObj []) "name" = name (snd s).
Proof.
  intros s.
  assert (Hr : reachable no_tokens s)
    by exact (construct_reachable no_tokens [] None ([[]; []], fresh_record)
                [OAdd "name" (VStr "stale")] eq_refl).
  assert (Ha : assoc "name" (additionalAttributes (snd s)) = Some (VStr "stale"))
    by reflexivity.
  assert (Hne : VStr "stale" <> name (snd s)) by discriminate.
  assert (Hj : toJson no_tokens s = Ok (VObj [])) by (vm_compute; reflexivity).
  split; [exact Hr|]; split; [exact Ha|]; split; [exact Hne|]; split; [exact Hj|].
  exact (typed_name_wins no_tokens (fst s) (snd s) (VStr "stale") (VObj []) Hr Ha Hne Hj).
Defined.

(** C10: a value written by [add] under one of the keys [name],
    [namespace], [labels], [annotations] never reaches the snapshot: the
    snapshot fails exactly when it failed before and otherwise gives every
    key the same value; with no typed [name], [add("name", v)] leaves the
    snapshot without a [name] key. *)
Theorem add_reserved_key_hidden rt h r k x :
  reachable rt (h, r) -> In k reserved_keys ->
  same_snapshot (toJson rt (add (h, r) k x)) (toJson rt (h, r)) /\
  (name r = VUndef ->
   forall d, toJson rt (add (h, r) "name" x) = Ok d -> doc_get d "name" = VUndef).
Proof.
  intros Hr Hk.
  destruct (reachable_inv rt _ Hr) as (Hnd & _ & _ & _ & _).
  cbn [add]; rewrite !js_assign_not_proto
    by (try discriminate; intros ->; cbn in Hk; intuition discriminate).
  set (r' := {| name := name r; namespace := namespace r; labels := labels r;
                annotations := annotations r;
                additionalAttributes := define_prop (additionalAttributes r) k x |}).
  assert (Hnd' : nodup_keys (additionalAttributes r') = true)
    by (apply nodup_define; exact Hnd).
  split.
  - rewrite !toJson_snapshot.
    apply same_lookups_same_snapshot; [apply merged_nodup; exact Hnd'|
                                       apply merged_nodup; exact Hnd|].
    intros j; rewrite (merged_assoc r' j Hnd'), (merged_assoc r j Hnd); cbn.
    destruct (String.eqb_spec j "labels"); [reflexivity|].
    destruct (String.eqb_spec j "annotations"); [reflexivity|].
    destruct (String.eqb_spec j "namespace"); [reflexivity|].
    destruct (String.eqb_spec j "name"); [reflexivity|].
    apply assoc_define_other.
    intros ->; cbn in Hk; intuition congruence.
  - intros Hn d Hd; rewrite toJson_snapshot in Hd.
    assert (Hnd'' : nodup_keys (define_prop (additionalAttributes r) "name" x) = true)
      by (apply nodup_define; exact Hnd).
    set (r'' := {| name := name r; namespace := namespace r; labels := labels r;
                   annotations := annotations r;
                   additionalAttributes := define_prop (additionalAttributes r) "name" x |})
      in *.
    rewrite (snapshot_get _ _ _ _ "name" (merged_nodup r'' Hnd'') Hd).
    rewrite (merged_assoc r'' "name" Hnd''); cbn; rewrite Hn; reflexivity.
Qed.

Lemma add_reserved_key_hidden_witness :
  reachable no_tokens ([[]; []], fresh_record) /\ In "name" reserved_keys /\
  same_snapshot (toJson no_tokens (add ([[]; []], fresh_record) "name" (VStr "web")))
                (toJson no_tokens ([[]; []], fresh_record)) /\
  toJson no_tokens (add ([[]; []], fresh_record) "name" (VStr "web")) = Ok (VObj []).
Proof.
  assert (Hr := fresh_record_reachable no_tokens).
  assert (Hk : In "name" reserved_keys) by (left; reflexivity).
  split; [exact Hr|]; split; [exact Hk|]; split.
  - exact (proj1 (add_reserved_key_hidden no_tokens [[]; []] fresh_record "name"
                    (VStr "web") Hr Hk)).
  - vm_compute; reflexivity.
Defined.

(** ** Further properties of [metadata.ts] *)

Lemma init_map_assoc_other h o k h' l o' j :
  init_map h o k = Some (h', l, o') -> j <> k -> assoc j o' = assoc j o.
Proof.
  unfold init_map, alloc; intros E Hj.
  destruct (assoc k o) as [[| | | | | m | l0 | ]|]; try discriminate.
  - cbn in E; inversion E; reflexivity.
  - destruct (string_entries m); [|discriminate].
    destruct (nodup_keys s); [|discriminate].
    inversion E; subst; apply assoc_define_other; exact Hj.
  - destruct (Nat.ltb l0 (length h)); [|discriminate]; inversion E; reflexivity.
  - cbn in E; inversion E; reflexivity.
Qed.

Lemma init_map_prefix h o k h' l o' :
  init_map h o k = Some (h', l, o') -> exists t, h' = h ++ t.
Proof.
  unfold init_map, alloc; intros E.
  destruct (assoc k o) as [[| | | | | m | l0 | ]|]; try discriminate.
  - cbn in E; inversion E; eexists; reflexivity.
  - destruct (string_entries m); [|discriminate].
    destruct (nodup_keys s); [|discriminate].
    inversion E; eexists; reflexivity.
  - destruct (Nat.ltb l0 (length h)); [|discriminate]; inversion E.
    exists []; rewrite app_nil_r; reflexivity.
  - cbn in E; inversion E; eexists; reflexivity.
Qed.

(** What [init_map] did: reuse an object of the heap, or allocate one at the
    end of it. *)
Lemma init_map_cases h o k h' l o' :
  init_map h o k = Some (h', l, o') ->
  (assoc k o = Some (VRef l) /\ l < length h /\ h' = h) \/
  (l = length h /\ (forall l0, assoc k o <> Some (VRef l0)) /\
   ((assoc k o = None \/ assoc k o = Some VUndef) /\ h' = h ++ [[]] \/
    exists m sm, assoc k o = Some (VObj m) /\ string_entries m = Some sm /\
                 h' = h ++ [sm])).
Proof.
  unfold init_map, alloc; intros E.
  destruct (assoc k o) as [[| | | | | m | l0 | ]|] eqn:Ea; try discriminate.
  - cbn in E; inversion E; subst; right; split; [reflexivity|].
    split; [intros l0; discriminate|]; left; auto.
  - destruct (string_entries m) as [sm|] eqn:Es; [|discriminate].
    destruct (nodup_keys sm); [|discriminate].
    inversion E; subst; right; split; [reflexivity|].
    split; [intros l0; discriminate|]; right; exists m, sm; auto.
  - destruct (Nat.ltb l0 (length h)) eqn:Hlt; [|discriminate].
    apply Nat.ltb_lt in Hlt; inversion E; subst; left; auto.
  - cbn in E; inversion E; subst; right; split; [reflexivity|].
    split; [intros l0; discriminate|]; left; auto.
Qed.

Lemma construct_unfold h o s :
  construct h (Some o) = Some s ->
  exists h1 ll o1 h2 la o2,
    init_map h o "labels" = Some (h1, ll, o1) /\
    init_map h1 o1 "annotations" = Some (h2, la, o2) /\
    s = (h2, {| name := prop_or_undef o "name"; labels := ll; annotations := la;
                namespace := prop_or_undef o "namespace";
                additionalAttributes := o2 |}).
Proof.
  unfold construct.
  destruct (negb (nodup_keys o)); [discriminate|].
  destruct (negb (string_or_undef (prop_or_undef o "name"))); [discriminate|].
  destruct (negb (string_or_undef (prop_or_undef o "namespace"))); [discriminate|].
  destruct (init_map h o "labels") as [[[h1 ll] o1]|] eqn:E1; [|discriminate].
  destruct (init_map h1 o1 "annotations") as [[[h2 la] o2]|] eqn:E2; [|discriminate].
  intros Hs; inversion Hs; subst.
  exists h1, ll, o1, h2, la, o2; auto.
Qed.

Lemma heap_get_app h t l : l < length h -> heap_get (h ++ t) l = heap_get h l.
Proof. intros Hl; unfold heap_get; apply app_nth1; exact Hl. Qed.

(** [getLabel] on a key [addLabel] did not write is unaffected by it. *)
Theorem getLabel_addLabel_other s k v j :
  j <> k -> getLabel (addLabel s k v) j = getLabel s j.
Proof.
  intros Hj; destruct s as [h r]; cbn.
  destruct (Nat.lt_ge_cases (labels r) (length h)) as [Hl|Hl].
  - rewrite heap_get_upd_same by exact Hl; unfold js_get.
    rewrite assoc_js_assign_other by exact Hj; reflexivity.
  - unfold heap_get; rewrite !nth_overflow; rewrite ?heap_upd_length; auto.
Qed.

Lemma getLabel_addLabel_other_witness :
  "app" <> "tier" /\
  getLabel (addLabel ([[("app", "web")]; []], fresh_record) "tier" "db") "app"
  = getLabel ([[("app", "web")]; []], fresh_record) "app".
Proof.
  assert (H : "app" <> "tier") by discriminate.
  split; [exact H|]; exact (getLabel_addLabel_other _ "tier" "db" "app" H).
Defined.

Lemma getLabel_addLabel_witness :
  reachable no_tokens ([[]; []], fresh_record) /\ "app" <> "__proto__" /\
  getLabel (addLabel ([[]; []], fresh_record) "app" "web") "app" = Found "web".
Proof.
  assert (Hr := fresh_record_reachable no_tokens).
  assert (Hk : "app" <> "__proto__") by discriminate.
  split; [exact Hr|]; split; [exact Hk|].
  exact (getLabel_addLabel no_tokens _ _ "app" "web" Hr Hk).
Defined.

(** The constructor with an object literal as [labels]: [getLabel] reads the
    entries of that literal. *)
Theorem construct_labels_literal h o s m sm j :
  construct h (Some o) = Some s ->
  assoc "labels" o = Some (VObj m) -> string_entries m = Some sm ->
  getLabel s j = js_get sm j.
Proof.
  intros Hc Hl Hs.
  destruct (construct_unfold _ _ _ Hc) as (h1 & ll & o1 & h2 & la & o2 & E1 & E2 & ->).
  destruct (init_map_prefix _ _ _ _ _ _ E2) as [t ->].
  destruct (init_map_cases _ _ _ _ _ _ E1) as [(Hr & _)|(-> & _ & [([Ha|Ha] & _)|Hc'])];
    rewrite Hl in *; try discriminate.
  destruct Hc' as (m' & sm' & Hm & Hs' & ->); inversion Hm; subst m'.
  rewrite Hs in Hs'; inversion Hs'; subst sm'.
  cbn; rewrite <- app_assoc; cbn; rewrite heap_get_middle; reflexivity.
Qed.

Lemma construct_labels_literal_witness :
  construct [] (Some [("labels", VObj [("app", VStr "web")])]) =
    Some ([[("app", "web")]; []],
          {| name := VUndef; namespace := VUndef; labels := 0; annotations := 1;
             additionalAttributes := [("labels", VRef 0)] |}) /\
  getLabel ([[("app", "web")]; []],
            {| name := VUndef; namespace := VUndef; labels := 0; annotations := 1;
               additionalAttributes := [("labels", VRef 0)] |}) "app" = Found "web".
Proof.
  assert (Hc : construct [] (Some [("labels", VObj [("app", VStr "web")])]) =
    Some ([[("app", "web")]; []],
          {| name := VUndef; namespace := VUndef; labels := 0; annotations := 1;
             additionalAttributes := [("labels", VRef 0)] |})) by reflexivity.
  split; [exact Hc|].
  exact (construct_labels_literal _ _ _ [("app", VStr "web")] [("app", "web")] "app"
           Hc eq_refl eq_refl).
Defined.

(** A record built with no options has no labels: [getLabel] gives
    [undefined] for every key that is not a member of [Object.prototype]. *)
Theorem construct_default_getLabel h s j :
  construct h None = Some s ->
  getLabel s j = if existsb (String.eqb j) object_prototype_keys then Inherited j
                 else Undefined.
Proof.
  rewrite construct_default; intros Hs; inversion Hs; subst s; cbn.
  rewrite <- app_assoc; cbn; rewrite heap_get_middle; reflexivity.
Qed.

Lemma construct_default_getLabel_witness :
  construct [] None = Some ([[]; []], fresh_record) /\
  getLabel ([[]; []], fresh_record) "app" = Undefined.
Proof.
  assert (Hc : construct [] None = Some ([[]; []], fresh_record)) by reflexivity.
  split; [exact Hc|]; exact (construct_default_getLabel [] _ "app" Hc).
Defined.

(** The constructor keeps the caller's labels object: [addLabel] writes into
    the very object passed as [options.labels]. *)
Theorem construct_shares_labels h o s l k v :
  construct h (Some o) = Some s -> assoc "labels" o = Some (VRef l) ->
  k <> "__proto__" ->
  heap_get (fst (addLabel s k v)) l = define_prop (heap_get h l) k v.
Proof.
  intros Hc Hl Hk.
  destruct (construct_unfold _ _ _ Hc) as (h1 & ll & o1 & h2 & la & o2 & E1 & E2 & ->).
  destruct (init_map_prefix _ _ _ _ _ _ E2) as [t ->].
  destruct (init_map_cases _ _ _ _ _ _ E1) as [(Hr & Hlt & ->)|(_ & Hn & _)];
    [|exfalso; exact (Hn l Hl)].
  rewrite Hl in Hr; inversion Hr; subst ll.
  cbn [addLabel fst labels]; rewrite heap_get_upd_same by (rewrite length_app; lia).
  rewrite heap_get_app by exact Hlt; apply js_assign_not_proto; exact Hk.
Qed.

Lemma construct_shares_labels_witness :
  construct [[("app", "web")]] (Some [("labels", VRef 0)]) =
    Some ([[("app", "web")]; []],
          {| name := VUndef; namespace := VUndef; labels := 0; annotations := 1;
             additionalAttributes := [("labels", VRef 0)] |}) /\
  heap_get (fst (addLabel ([[("app", "web")]; []],
            {| name := VUndef; namespace := VUndef; labels := 0; annotations := 1;
               additionalAttributes := [("labels", VRef 0)] |}) "tier" "db")) 0
  = [("app", "web"); ("tier", "db")].
Proof.
  assert (Hc : construct [[("app", "web")]] (Some [("labels", VRef 0)]) =
    Some ([[("app", "web")]; []],
          {| name := VUndef; namespace := VUndef; labels := 0; annotations := 1;
             additionalAttributes := [("labels", VRef 0)] |})) by reflexivity.
  assert (Hk : "tier" <> "__proto__") by discriminate.
  split; [exact Hc|].
  exact (construct_shares_labels _ _ _ 0 "tier" "db" Hc eq_refl Hk).
Defined.

(** The record's labels and annotations are one object only when the options
    passed one and the same existing object as both. *)
Theorem construct_labels_annotations_alias h o h' r :
  construct h (Some o) = Some (h', r) ->
  (forall l, assoc "annotations" o = Some (VRef l) -> l < length h) ->
  labels r = annotations r ->
  exists l, assoc "labels" o = Some (VRef l) /\ assoc "annotations" o = Some (VRef l).
Proof.
  intros Hc Hwf Heq.
  destruct (construct_unfold _ _ _ Hc) as (h1 & ll & o1 & h2 & la & o2 & E1 & E2 & Hs).
  inversion Hs; subst h' r; cbn in Heq; subst la.
  assert (Ho1 : assoc "annotations" o1 = assoc "annotations" o)
    by (apply (init_map_assoc_other _ _ _ _ _ _ _ E1); discriminate).
  destruct (init_map_cases _ _ _ _ _ _ E2) as [(Ha & Hlt & _)|(Hll & Hna & _)];
    rewrite Ho1 in *.
  - destruct (init_map_cases _ _ _ _ _ _ E1) as [(Hl & _ & _)|(-> & _ & Hh1)].
    + exists ll; split; assumption.
    + specialize (Hwf _ Ha); lia.
  - destruct (init_map_cases _ _ _ _ _ _ E1) as [(Hl & Hlt & ->)|(-> & _ & Hh1)].
    + lia.
    + destruct Hh1 as [(_ & ->)|(m & sm & _ & _ & ->)]; rewrite length_app in Hll;
        cbn in Hll; lia.
Qed.

Lemma construct_labels_annotations_alias_witness :
  construct [[]] (Some [("labels", VRef 0); ("annotations", VRef 0)]) =
    Some ([[]], {| name := VUndef; namespace := VUndef; labels := 0; annotations := 0;
                   additionalAttributes := [("labels", VRef 0); ("annotations", VRef 0)] |}) /\
  exists l, assoc "labels" [("labels", VRef 0); ("annotations", VRef 0)] = Some (VRef l) /\
            assoc "annotations" [("labels", VRef 0); ("annotations", VRef 0)] = Some (VRef l).
Proof.
  assert (Hc : construct [[]] (Some [("labels", VRef 0); ("annotations", VRef 0)]) =
    Some ([[]], {| name := VUndef; namespace := VUndef; labels := 0; annotations := 0;
                   additionalAttributes := [("labels", VRef 0); ("annotations", VRef 0)] |}))
    by reflexivity.
  assert (Hwf : forall l, assoc "annotations" [("labels", VRef 0); ("annotations", VRef 0)]
                          = Some (VRef l) -> l < length [[] : smap])
    by (intros l Hl; cbn in Hl; inversion Hl; cbn; lia).
  split; [exact Hc|].
  exact (construct_labels_annotations_alias _ _ _ _ Hc Hwf eq_refl).
Defined.

(** [additionalAttributes] is the options bundle itself: every key other than
    [labels] and [annotations] holds what the options hold. *)
Theorem construct_additional_attributes h o h' r j :
  construct h (Some o) = Some (h', r) -> j <> "labels" -> j <> "annotations" ->
  assoc j (additionalAttributes r) = assoc j o.
Proof.
  intros Hc H1 H2.
  destruct (construct_unfold _ _ _ Hc) as (h1 & ll & o1 & h2 & la & o2 & E1 & E2 & Hs).
  inversion Hs; subst; cbn.
  rewrite (init_map_assoc_other _ _ _ _ _ _ _ E2 H2).
  exact (init_map_assoc_other _ _ _ _ _ _ _ E1 H1).
Qed.

Lemma construct_additional_attributes_witness :
  construct [] (Some [("finalizers", VArr [VStr "x"])]) =
    Some ([[]; []], {| name := VUndef; namespace := VUndef; labels := 0; annotations := 1;
                       additionalAttributes := [("finalizers", VArr [VStr "x"])] |}) /\
  assoc "finalizers" [("finalizers", VArr [VStr "x"])] = Some (VArr [VStr "x"]).
Proof.
  assert (Hc : construct [] (Some [("finalizers", VArr [VStr "x"])]) =
    Some ([[]; []], {| name := VUndef; namespace := VUndef; labels := 0; annotations := 1;
                       additionalAttributes := [("finalizers", VArr [VStr "x"])] |}))
    by reflexivity.
  split; [exact Hc|].
  rewrite <- (construct_additional_attributes _ _ _ _ "finalizers" Hc);
    [reflexivity | discriminate | discriminate].
Defined.

(** [getLabel] only sees [addAnnotation] when labels and annotations are the
    same object, and never sees [add]. *)
Theorem getLabel_frame s k v x j :
  (labels (snd s) <> annotations (snd s) ->
   getLabel (addAnnotation s k v) j = getLabel s j) /\
  getLabel (add s k x) j = getLabel s j.
Proof.
  destruct s as [h r]; cbn; split; [|reflexivity].
  intros Hne; rewrite heap_get_upd_other by exact Hne; reflexivity.
Qed.

Lemma getLabel_frame_witness :
  labels (snd fresh_state) <> annotations (snd fresh_state) /\
  getLabel (addAnnotation fresh_state "team" "x") "team" = Undefined.
Proof.
  assert (Hne : labels (snd fresh_state) <> annotations (snd fresh_state))
    by discriminate.
  split; [exact Hne|].
  rewrite (proj1 (getLabel_frame fresh_state "team" "x" VUndef "team") Hne).
  reflexivity.
Defined.

Lemma sanitize_entries_strings opts m :
  sanitize_entries (sanitizeValue opts) opts (map (fun '(k, s) => (k, VStr s)) m)
  = map (fun '(k, s) => (k, VStr s)) m.
Proof.
  induction m as [|[k s] t IH]; cbn; [reflexivity|]; rewrite IH; reflexivity.
Qed.

Lemma entry_in_doc_ref rt h l :
  entry_in_doc rt h (Some (VRef l)) =
  match heap_get h l with
  | [] => VUndef
  | m => VObj (map (fun '(k, s) => (k, VStr s)) m)
  end.
Proof.
  cbn [entry_in_doc resolve]; rewrite sanitizeValue_obj, sanitize_entries_strings.
  destruct (heap_get h l) as [|[k s] t]; reflexivity.
Qed.

(** In a snapshot, [labels] is the record's labels object with its string
    entries, and is left out when that object is empty; likewise
    [annotations]. *)
Theorem toJson_labels_annotations rt h r d :
  reachable rt (h, r) -> toJson rt (h, r) = Ok d ->
  doc_get d "labels" =
    match heap_get h (labels r) with
    | [] => VUndef
    | m => VObj (map (fun '(k, s) => (k, VStr s)) m)
    end /\
  doc_get d "annotations" =
    match heap_get h (annotations r) with
    | [] => VUndef
    | m => VObj (map (fun '(k, s) => (k, VStr s)) m)
    end.
Proof.
  intros Hr Hd; destruct (reachable_inv rt _ Hr) as (Hnd & _ & _ & _ & _).
  rewrite toJson_snapshot in Hd.
  rewrite !(snapshot_get _ _ _ _ _ (merged_nodup r Hnd) Hd).
  rewrite !merged_assoc by exact Hnd; cbn [String.eqb Ascii.eqb Bool.eqb].
  split; apply entry_in_doc_ref.
Qed.

Lemma toJson_labels_annotations_witness :
  let s := addLabel ([[]; []], fresh_record) "app" "web" in
  reachable no_tokens s /\ toJson no_tokens s = Ok (VObj [("labels", VObj [("app", VStr "web")])]) /\
  doc_get (VObj [("labels", VObj [("app", VStr "web")])]) "annotations" = VUndef.
Proof.
  intros s.
  assert (Hr : reachable no_tokens s)
    by exact (construct_reachable no_tokens [] None ([[]; []], fresh_record)
                [OAddLabel "app" "web"] eq_refl).
  assert (Hj : toJson no_tokens s = Ok (VObj [("labels", VObj [("app", VStr "web")])]))
    by (vm_compute; reflexivity).
  split; [exact Hr|]; split; [exact Hj|].
  exact (proj2 (toJson_labels_annotations no_tokens _ _ _ Hr Hj)).
Defined.

(** In a snapshot, [namespace] is the typed field (left out when it is
    [undefined]). *)
Theorem toJson_namespace rt h r d :
  reachable rt (h, r) -> toJson rt (h, r) = Ok d -> doc_get d "namespace" = namespace r.
Proof.
  intros Hr Hd; destruct (reachable_inv rt _ Hr) as (Hnd & _ & Hns & _ & _).
  rewrite toJson_snapshot in Hd.
  rewrite (snapshot_get _ _ _ _ _ (merged_nodup r Hnd) Hd).
  rewrite merged_assoc by exact Hnd; cbn.
  destruct (namespace r); try discriminate; reflexivity.
Qed.

Lemma toJson_namespace_witness :
  construct [] (Some [("namespace", VStr "prod")]) =
    Some ([[]; []], {| name := VUndef; namespace := VStr "prod"; labels := 0;
                       annotations := 1;
                       additionalAttributes := [("namespace", VStr "prod")] |}) /\
  doc_get (VObj [("namespace", VStr "prod")]) "namespace" = VStr "prod".
Proof.
  assert (Hc : construct [] (Some [("namespace", VStr "prod")]) =
    Some ([[]; []], {| name := VUndef; namespace := VStr "prod"; labels := 0;
                       annotations := 1;
                       additionalAttributes := [("namespace", VStr "prod")] |}))
    by reflexivity.
  assert (Hr := construct_reachable no_tokens _ _ _ [] Hc).
  split; [exact Hc|].
  exact (toJson_namespace no_tokens _ _ _ Hr eq_refl).
Defined.

Lemma merged_assoc_add r k x :
  nodup_keys (additionalAttributes r) = true -> ~ In k reserved_keys ->
  k <> "__proto__" ->
  nodup_keys (additionalAttributes (snd (add ([], r) k x))) = true /\
  assoc k (merged (snd (add ([], r) k x))) = Some x.
Proof.
  intros Hnd Hk Hp; cbn [add snd additionalAttributes].
  rewrite js_assign_not_proto by exact Hp.
  assert (Hnd' : nodup_keys (define_prop (additionalAttributes r) k x) = true)
    by (apply nodup_define; exact Hnd).
  split; [exact Hnd'|].
  set (r' := {| name := name r; namespace := namespace r; labels := labels r;
                annotations := annotations r;
                additionalAttributes := define_prop (additionalAttributes r) k x |}).
  rewrite (merged_assoc r' k Hnd').
  destruct (String.eqb_spec k "labels"); [subst; exfalso; apply Hk; cbn; tauto|].
  destruct (String.eqb_spec k "annotations"); [subst; exfalso; apply Hk; cbn; tauto|].
  destruct (String.eqb_spec k "namespace"); [subst; exfalso; apply Hk; cbn; tauto|].
  destruct (String.eqb_spec k "name"); [subst; exfalso; apply Hk; cbn; tauto|].
  apply assoc_define_same.
Qed.

(** A value written by [add] under a key other than [name], [namespace],
    [labels], [annotations] and ["__proto__"] reaches the snapshot resolved
    and sanitized (left out when sanitizing removes it). *)
Theorem toJson_added_entry rt h r k x d :
  reachable rt (h, r) -> ~ In k reserved_keys -> k <> "__proto__" ->
  toJson rt (add (h, r) k x) = Ok d ->
  doc_get d k = entry_in_doc rt h (Some x).
Proof.
  intros Hr Hk Hp Hd; destruct (reachable_inv rt _ Hr) as (Hnd & _ & _ & _ & _).
  destruct (merged_assoc_add r k x Hnd Hk Hp) as [Hnd' Ha].
  change (add (h, r) k x) with (h, snd (add ([], r) k x)) in Hd.
  rewrite toJson_snapshot in Hd.
  rewrite (snapshot_get _ _ _ _ k (merged_nodup _ Hnd') Hd), Ha; reflexivity.
Qed.

Lemma toJson_added_entry_witness :
  reachable no_tokens fresh_state /\ ~ In "custom" reserved_keys /\
  ("custom" <> "__proto__") /\
  toJson no_tokens (add fresh_state "custom" (VNum 42)) = Ok (VObj [("custom", VNum 42)]) /\
  doc_get (VObj [("custom", VNum 42)]) "custom" = VNum 42.
Proof.
  assert (Hr := fresh_record_reachable no_tokens).
  assert (Hk : ~ In "custom" reserved_keys)
    by (cbn; intuition discriminate).
  assert (Hp : "custom" <> "__proto__") by discriminate.
  assert (Hj : toJson no_tokens (add fresh_state "custom" (VNum 42))
               = Ok (VObj [("custom", VNum 42)])) by (vm_compute; reflexivity).
  split; [exact Hr|]; split; [exact Hk|]; split; [exact Hp|]; split; [exact Hj|].
  exact (toJson_added_entry no_tokens _ _ "custom" (VNum 42) _ Hr Hk Hp Hj).
Defined.

(** A deferred value whose resolution fails, written by [add] under a key
    other than [name], [namespace], [labels], [annotations] and
    ["__proto__"], makes [toJson] fail. *)
Theorem toJson_added_token_fails rt h r k t e :
  reachable rt (h, r) -> ~ In k reserved_keys -> k <> "__proto__" ->
  rt t = Err e ->
  exists e', toJson rt (add (h, r) k (VToken t)) = Err e'.
Proof.
  intros Hr Hk Hp Ht; destruct (reachable_inv rt _ Hr) as (Hnd & _ & _ & _ & _).
  destruct (merged_assoc_add r k (VToken t) Hnd Hk Hp) as [_ Ha].
  change (add (h, r) k (VToken t)) with (h, snd (add ([], r) k (VToken t))).
  rewrite toJson_snapshot.
  destruct (snapshot_of rt h (merged (snd (add ([], r) k (VToken t))))) as [d|e'] eqn:E.
  - destruct (snapshot_ok_entry _ _ _ _ _ _ E Ha) as [x' Hx].
    cbn in Hx; congruence.
  - exists e'; reflexivity.
Qed.

Lemma toJson_added_token_fails_witness :
  reachable no_tokens fresh_state /\ ~ In "custom" reserved_keys /\
  ("custom" <> "__proto__") /\ no_tokens 7 = Err "unresolvable token" /\
  exists e', toJson no_tokens (add fresh_state "custom" (VToken 7)) = Err e'.
Proof.
  assert (Hr := fresh_record_reachable no_tokens).
  assert (Hk : ~ In "custom" reserved_keys)
    by (cbn; intuition discriminate).
  assert (Hp : "custom" <> "__proto__") by discriminate.
  assert (Ht : no_tokens 7 = Err "unresolvable token") by reflexivity.
  split; [exact Hr|]; split; [exact Hk|]; split; [exact Hp|]; split; [exact Ht|].
  exact (toJson_added_token_fails no_tokens _ _ "custom" 7 _ Hr Hk Hp Ht).
Defined.
